(** * whatsapp-vision-api: the image analysis pipeline of [app.py]

    A shallow embedding of the pure parts of [app.py] (colour analysis, tag
    extraction, lexical translation) and of the control flow of the
    [/analyze] endpoint around the captioning model.

    Conventions.
    - A Python [str] is a [string]; the texts handled here are ASCII (the
      captions of the model are English), and [lower] / [capitalize] map the
      ASCII letters, which is what [str.lower] and [str.capitalize] do on
      such text.  The accented letters of the French table are the UTF-8
      bytes of the source file; they are caseless bytes for the ASCII case
      mapping, as [â] and [é] are already lower case.  The statements on
      the translator say so: they take a text for which [is_ascii] holds.
      What [str.capitalize] does to one letter outside ASCII is
      [capitalize_unicode].
    - A Python [dict] is an association list in insertion order, since
      [analyze_colors] and [translate_to_french] both depend on that order.
    - Pixel channels are [Z]; counters are [nat].
    - PIL, base64 and the BLIP model are outside the repository: they are
      the fields of the record [Externals]. *)

From Stdlib Require Import ZArith List String Ascii Bool Arith Lia.
From Stdlib Require Import Sorting.Sorted Sorting.Permutation DecimalString.
Import ListNotations.

Local Open Scope string_scope.
Local Open Scope list_scope.

(** ** Images *)

Definition pixel : Type := (Z * Z * Z)%type.

(** [Image.convert('RGB')]: a raster of RGB triples; [data] is what
    [getdata()] yields, row by row. *)
Record Image : Type := mkImage {
  width : Z;
  height : Z;
  data : list pixel
}.

(** ** analyze_colors  (app.py, lines 158-186) *)

(** The body of the loop, lines 168-180. *)
Definition classify_pixel (p : pixel) : string :=
  let '(r, g, b) := p in
  if ((r >? g) && (r >? b))%Z then "rouge"
  else if ((g >? r) && (g >? b))%Z then "vert"
  else if ((b >? r) && (b >? g))%Z then "bleu"
  else if ((r >? 200) && (g >? 200) && (b >? 200))%Z then "blanc"
  else if ((r <? 50) && (g <? 50) && (b <? 50))%Z then "noir"
  else "mixte".

(** The six labels the loop can assign. *)
Definition color_buckets : list string :=
  ["rouge"; "vert"; "bleu"; "blanc"; "noir"; "mixte"].

(** [color_counts]: a dict from label to count, in insertion order. *)
Definition dict : Type := list (string * nat).

(** [d.get(k, default)] *)
Fixpoint dict_get (d : dict) (k : string) (default : nat) : nat :=
  match d with
  | [] => default
  | (k', v) :: d' => if String.eqb k' k then v else dict_get d' k default
  end.

(** [d[k] = v]: an existing key keeps its place, a new key goes last. *)
Fixpoint dict_set (d : dict) (k : string) (v : nat) : dict :=
  match d with
  | [] => [(k, v)]
  | (k', v') :: d' =>
      if String.eqb k' k then (k', v) :: d' else (k', v') :: dict_set d' k v
  end.

(** One iteration of the loop of lines 166-182. *)
Definition count_pixel (color_counts : dict) (p : pixel) : dict :=
  let color := classify_pixel p in
  dict_set color_counts color (dict_get color_counts color 0 + 1).

Definition tally (pixels : list pixel) : dict :=
  fold_left count_pixel pixels [].

(** [sorted(items, key=lambda x: x[1], reverse=True)].  Python's sort is
    stable, also with [reverse=True]: items with equal keys keep the order
    they had.  A stable sort has one possible result, here computed by
    insertion: [x], which stood before all of [l], goes before the first
    item whose count is not greater than its own. *)
Fixpoint insert_desc (x : string * nat) (l : list (string * nat))
  : list (string * nat) :=
  match l with
  | [] => [x]
  | y :: l' =>
      if (snd y <=? snd x)%nat then x :: y :: l' else y :: insert_desc x l'
  end.

Definition sorted_desc (items : list (string * nat)) : list (string * nat) :=
  fold_right insert_desc [] items.

(** Lines 184-186, on the pixels of the resized image. *)
Definition top_colors (pixels : list pixel) : list string :=
  let sorted_colors := sorted_desc (tally pixels) in
  map fst (firstn 3 sorted_colors).

(** ** The [str] methods the program calls *)

Definition is_upper (c : ascii) : bool :=
  let n := nat_of_ascii c in ((65 <=? n) && (n <=? 90))%nat.

Definition is_lower (c : ascii) : bool :=
  let n := nat_of_ascii c in ((97 <=? n) && (n <=? 122))%nat.

Definition lower_char (c : ascii) : ascii :=
  if is_upper c then ascii_of_nat (nat_of_ascii c + 32) else c.

Definition upper_char (c : ascii) : ascii :=
  if is_lower c then ascii_of_nat (nat_of_ascii c - 32) else c.

(** [s.lower()] *)
Fixpoint lower (s : string) : string :=
  match s with
  | EmptyString => EmptyString
  | String c s' => String (lower_char c) (lower s')
  end.

(** [s.capitalize()]: the first character in upper case and all the others
    in lower case. *)
Definition capitalize (s : string) : string :=
  match s with
  | EmptyString => EmptyString
  | String c s' => String (upper_char c) (lower s')
  end.

(** [sub in s] *)
Fixpoint str_in (sub s : string) : bool :=
  prefix sub s ||
  match s with
  | EmptyString => false
  | String _ s' => str_in sub s'
  end.

(** [s.replace(old, new)] for a non-empty [old]: scan from the left; where
    [old] starts, emit [new] and jump over the occurrence ([skip] counts the
    characters of it still to jump), elsewhere copy the character. *)
Fixpoint replace_from (old new : string) (skip : nat) (s : string) : string :=
  match s with
  | EmptyString => EmptyString
  | String c s' =>
      match skip with
      | S k => replace_from old new k s'
      | O =>
          if prefix old s
          then (new ++ replace_from old new (String.length old - 1) s')%string
          else String c (replace_from old new 0 s')
      end
  end.

(** [s.replace("", new)] puts [new] before every character and at the end. *)
Fixpoint replace_empty (new s : string) : string :=
  match s with
  | EmptyString => new
  | String c s' => (new ++ String c (replace_empty new s'))%string
  end.

Definition replace (old new s : string) : string :=
  match old with
  | EmptyString => replace_empty new s
  | String _ _ => replace_from old new 0 s
  end.

(** ** translate_to_french  (app.py, lines 188-223) *)

(** The dict [translations], in the order it is written (the order
    [translations.items()] iterates in). *)
Definition translations : list (string * string) :=
  [ ("a photo of", "une photo de");
    ("an image of", "une image de");
    ("person", "personne");
    ("people", "personnes");
    ("man", "homme");
    ("woman", "femme");
    ("car", "voiture");
    ("dog", "chien");
    ("cat", "chat");
    ("food", "nourriture");
    ("building", "bâtiment");
    ("street", "rue");
    ("tree", "arbre");
    ("sky", "ciel");
    ("water", "eau");
    ("sitting", "assis");
    ("standing", "debout");
    ("walking", "marchant");
    ("on", "sur");
    ("in", "dans");
    ("with", "avec");
    ("and", "et");
    ("the", "le/la");
    ("a", "un/une") ].

(** The loop of lines 219-220 over a table. *)
Definition apply_table (table : list (string * string)) (result : string)
  : string :=
  fold_left (fun result '(en, fr) => replace en fr result) table result.

Definition translate_to_french (text : string) : string :=
  let result := lower text in
  let result := apply_table translations result in
  capitalize result.

(** Lines 130-133 of [generate_description]. *)
Definition translate_if_needed (language description_en : string) : string :=
  if String.eqb language "fr" then translate_to_french description_en
  else description_en.

(** ** The captioning model and the other collaborators *)

(** One use of the model: [processor(image[, text])] followed by
    [model.generate] on the processor's output, with [max_length] and, where given, [num_beams]. *)
Record ModelCall : Type := mkCall {
  call_image : Image;
  call_prompt : option string;
  call_max_length : Z;
  call_num_beams : option Z
}.

(** A raised exception, as the text [str(e)] of it. *)
Definition Exc (A : Type) : Type := (string + A)%type.

Record Externals : Type := mkExternals {
  (** [base64.b64decode] *)
  b64decode : string -> Exc (list Byte.byte);
  (** [Image.open(io.BytesIO(bytes)).convert('RGB')] *)
  image_open : list Byte.byte -> Exc Image;
  (** the resampling of [Image.resize] to a different size *)
  resample : Image -> Z -> Z -> list pixel;
  (** [processor.decode(model.generate(...)[0], skip_special_tokens=True)] *)
  blip : ModelCall -> Exc string;
  (** [datetime.now()], as [isoformat()] and as [strftime('%H:%M')] *)
  now_iso : string;
  now_hm : string
}.

(** Computations that use the model: the calls made so far are threaded
    through, and stay made when an exception is raised. *)
Definition M (A : Type) : Type := list ModelCall -> Exc A * list ModelCall.

Definition ret {A : Type} (a : A) : M A := fun calls => (inr a, calls).

Definition raise {A : Type} (e : string) : M A := fun calls => (inl e, calls).

Definition bind {A B : Type} (m : M A) (k : A -> M B) : M B :=
  fun calls =>
    match m calls with
    | (inr a, calls') => k a calls'
    | (inl e, calls') => (inl e, calls')
    end.

(** [try: m  except Exception as e: h e] *)
Definition try_except {A : Type} (m : M A) (h : string -> M A) : M A :=
  fun calls =>
    match m calls with
    | (inr a, calls') => (inr a, calls')
    | (inl e, calls') => h e calls'
    end.

Definition lift {A : Type} (x : Exc A) : M A :=
  match x with
  | inr a => ret a
  | inl e => raise e
  end.

Notation "x <- m ;; k" := (bind m (fun x => k))
  (at level 61, m at next level, right associativity).

Section Pipeline.

Variable ext : Externals.

(** The model is invoked: the call is recorded, then answered. *)
Definition generate (c : ModelCall) : M string :=
  fun calls => (blip ext c, calls ++ [c]).

(** [image.resize((w, h))]; PIL returns a copy when the size is the same. *)
Definition resize (image : Image) (w h : Z) : Image :=
  if ((width image =? w) && (height image =? h))%Z then image
  else mkImage w h (resample ext image w h).

(** app.py, lines 110-135 *)
Definition generate_description (image : Image) (language detail_level : string)
  : M string :=
  description_en <-
    (if String.eqb detail_level "detailed"
     then generate (mkCall image (Some "a photography of") 100 (Some 5%Z))
     else generate (mkCall image None 50 (Some 3%Z))) ;;
  ret (translate_if_needed language description_en).

Definition common_objects : list string :=
  ["person"; "car"; "animal"; "food"; "building"; "nature"; "object"].

(** Lines 149-156 of [detect_objects], on the decoded text. *)
Definition parse_objects (objects_text : string) : list string :=
  let detected :=
    filter (fun obj => str_in obj (lower objects_text)) common_objects in
  match detected with
  | [] => ["objet non identifié"]
  | _ :: _ => detected
  end.

(** app.py, lines 137-156 *)
Definition detect_objects (image : Image) : M (list string) :=
  objects_text <-
    generate (mkCall image (Some "What objects are in this image?") 30 None) ;;
  ret (parse_objects objects_text).

(** app.py, lines 158-186 *)
Definition analyze_colors (image : Image) : list string :=
  let image_small := resize image 150 150 in
  let pixels := data image_small in
  top_colors pixels.

Definition nl : string := String (ascii_of_nat 10) EmptyString.

Definition str_of_Z (z : Z) : string := NilEmpty.string_of_int (Z.to_int z).

(** app.py, lines 225-241 *)
Definition format_whatsapp_response (description : string)
  (objects colors : list string) : string :=
  String.concat nl
    [ "📸 *Analyse de votre image*"; "";
      "📝 *Description:*"; description; "";
      "🔍 *Éléments détectés:*"; String.concat ", " objects; "";
      "🎨 *Couleurs principales:*"; String.concat ", " colors; "";
      "🤖 _Analyse générée par IA_";
      ("⏰ _" ++ now_hm ext ++ "_")%string ].

(** What [/analyze] answers: the JSON body and the status code. *)
Inductive Reply : Type :=
| Success (description : string) (objects colors : list string)
    (image_size timestamp whatsapp_message : string)
| Failure (status : Z) (error : string).

(** The JSON object of the request, with its string fields. *)
Definition Json : Type := list (string * string).

Fixpoint json_get (data : Json) (key : string) : option string :=
  match data with
  | [] => None
  | (k, v) :: data' => if String.eqb k key then Some v else json_get data' key
  end.

Definition json_get_default (data : Json) (key default : string) : string :=
  match json_get data key with
  | Some v => v
  | None => default
  end.

(** app.py, lines 55-108 *)
Definition analyze_image (data : Json) : M Reply :=
  try_except
    (match json_get data "image" with
     | None => ret (Failure 400 "Aucune image fournie")
     | Some payload =>
         image_data <- lift (b64decode ext payload) ;;
         image <- lift (image_open ext image_data) ;;
         let language := json_get_default data "language" "fr" in
         let detail_level := json_get_default data "detail_level" "normal" in
         description <- generate_description image language detail_level ;;
         objects <- detect_objects image ;;
         let colors := analyze_colors image in
         let image_size :=
           (str_of_Z (width image) ++ "x" ++ str_of_Z (height image))%string in
         let whatsapp_message :=
           format_whatsapp_response description objects colors in
         ret (Success description objects colors image_size (now_iso ext)
                whatsapp_message)
     end)
    (fun e => ret (Failure 500 e)).

End Pipeline.

(** ** Vocabulary of the statements *)

(** The labels of the pixels, in scan order. *)
Definition labels (pixels : list pixel) : list string :=
  map classify_pixel pixels.

(** How many pixels of the scan fall in a bucket. *)
Definition bucket_count (pixels : list pixel) (c : string) : nat :=
  count_occ string_dec (labels pixels) c.

(** Position of the first occurrence of [c] in [l] (its length if none). *)
Fixpoint index_of (c : string) (l : list string) : nat :=
  match l with
  | [] => 0
  | x :: l' => if string_dec x c then 0 else S (index_of c l')
  end.

(** Position in the scan of the first pixel of a bucket. *)
Definition first_seen (pixels : list pixel) (c : string) : nat :=
  index_of c (labels pixels).

(** [c1] comes before [c2] in the ranking: more pixels, or as many and
    met earlier in the scan. *)
Definition ranks_before (pixels : list pixel) (c1 c2 : string) : Prop :=
  bucket_count pixels c1 > bucket_count pixels c2 \/
  (bucket_count pixels c1 = bucket_count pixels c2 /\
   first_seen pixels c1 < first_seen pixels c2).

(** The distinct elements of a list, each at its first occurrence. *)
Definition seen (l : list string) : list string :=
  fold_left (fun acc c => if in_dec string_dec c acc then acc else acc ++ [c])
    l [].

Definition keys (d : dict) : list string := map fst d.

(** The rules of the classification, as the specification names them. *)
Definition red_rule (r g b : Z) : Prop := (r > g /\ r > b)%Z.
Definition green_rule (r g b : Z) : Prop := (g > r /\ g > b)%Z.
Definition blue_rule (r g b : Z) : Prop := (b > r /\ b > g)%Z.
Definition white_rule (r g b : Z) : Prop := (r > 200 /\ g > 200 /\ b > 200)%Z.
Definition black_rule (r g b : Z) : Prop := (r < 50 /\ g < 50 /\ b < 50)%Z.

Definition byte_range (x : Z) : Prop := (0 <= x <= 255)%Z.

(** The order of a stable sort by decreasing count of items that stood in
    the order [T]. *)
Definition sorted_rel (T : string * nat -> string * nat -> Prop)
  (x y : string * nat) : Prop :=
  snd x > snd y \/ (snd x = snd y /\ T x y).

(** The buckets of the scan from the most frequent to the least. *)
Definition ranking (pixels : list pixel) : list string :=
  map fst (sorted_desc (tally pixels)).

(** [sub] occurs in [s] as a substring. *)
Definition occurs (sub s : string) : Prop :=
  exists pre post, s = (pre ++ sub ++ post)%string.

(** [l1] is [l2] with some elements left out, the others in their order. *)
Inductive Subseq {A : Type} : list A -> list A -> Prop :=
| Subseq_nil : Subseq [] []
| Subseq_keep (x : A) (l1 l2 : list A) :
    Subseq l1 l2 -> Subseq (x :: l1) (x :: l2)
| Subseq_drop (x : A) (l1 l2 : list A) :
    Subseq l1 l2 -> Subseq l1 (x :: l2).

(** [t] is [s] with the occurrences of [old] replaced by [new]: all of
    them, taken from the left, none overlapping another. *)
Inductive replaced (old new : string) : string -> string -> Prop :=
| replaced_end : replaced old new EmptyString EmptyString
| replaced_hit (s t : string) :
    replaced old new s t ->
    replaced old new (old ++ s)%string (new ++ t)%string
| replaced_copy (c : ascii) (s t : string) :
    prefix old (String c s) = false ->
    replaced old new s t ->
    replaced old new (String c s) (String c t).

(** The pairs of a table applied one after the other, each to the result
    of the one before. *)
Inductive table_applied : list (string * string) -> string -> string -> Prop :=
| table_applied_nil (s : string) : table_applied [] s s
| table_applied_cons (en fr : string) (table : list (string * string))
    (s s1 s2 : string) :
    replaced en fr s s1 -> table_applied table s1 s2 ->
    table_applied ((en, fr) :: table) s s2.

(** The first character in upper case, the others as they are. *)
Definition capitalize_first (s : string) : string :=
  match s with
  | EmptyString => EmptyString
  | String c s' => String (upper_char c) s'
  end.

Fixpoint is_ascii (s : string) : bool :=
  match s with
  | EmptyString => true
  | String c s' => (nat_of_ascii c <? 128)%nat && is_ascii s'
  end.

(** No English phrase of the table occurs in the text, whatever the case
    of its letters. *)
Definition no_table_phrase (text : string) : Prop :=
  forall en fr, In (en, fr) translations -> ~ occurs en (lower text).

(** [out] is [text] but for the case of the first character. *)
Definition equal_up_to_first_capital (out text : string) : Prop :=
  match out, text with
  | EmptyString, EmptyString => True
  | String c1 s1, String c2 s2 =>
      s1 = s2 /\ (c1 = c2 \/ c1 = upper_char c2 \/ c1 = lower_char c2)
  | _, _ => False
  end.

(** The request cannot be turned into an image. *)
Inductive InputError (ext : Externals) (data : Json) : Prop :=
| missing_image :
    json_get data "image" = None -> InputError ext data
| invalid_base64 (payload e : string) :
    json_get data "image" = Some payload ->
    b64decode ext payload = inl e -> InputError ext data
| undecodable_image (payload e : string) (image_data : list Byte.byte) :
    json_get data "image" = Some payload ->
    b64decode ext payload = inr image_data ->
    image_open ext image_data = inl e -> InputError ext data.

(** A 4xx status. *)
Definition client_error (r : Reply) : Prop :=
  match r with
  | Failure status _ => (400 <= status < 500)%Z
  | Success _ _ _ _ _ _ => False
  end.

(** Collaborators for the examples: the payload [abc] lacks its padding,
    no bytes are an image, and the model answers [a dog]. *)
Definition stub : Externals :=
  mkExternals
    (fun payload =>
       if String.eqb payload "abc" then inl "Incorrect padding" else inr [])
    (fun _ => inl "cannot identify image file")
    (fun _ _ _ => [])
    (fun _ => inr "a dog")
    "2024-01-01T12:00:00"
    "12:00".

(** A 150x150 image with all pixels [(255, 0, 0)]. *)
Definition red_image : Image :=
  mkImage 150 150 (repeat (255, 0, 0)%Z (150 * 150)).

(** The call [generate_description] makes for a detail level. *)
Definition caption_call (image : Image) (detail_level : string) : ModelCall :=
  if String.eqb detail_level "detailed"
  then mkCall image (Some "a photography of") 100 (Some 5%Z)
  else mkCall image None 50 (Some 3%Z).

(** The call [detect_objects] makes. *)
Definition objects_call (image : Image) : ModelCall :=
  mkCall image (Some "What objects are in this image?") 30 None.

(** [f"{image.width}x{image.height}"] *)
Definition image_size_of (image : Image) : string :=
  (str_of_Z (width image) ++ "x" ++ str_of_Z (height image))%string.

(** The sum of the counts of a dict. *)
Definition total (d : dict) : nat := list_sum (map snd d).

(** The character occurs nowhere in the string. *)
Fixpoint lacks (a : ascii) (s : string) : Prop :=
  match s with
  | EmptyString => True
  | String c s' => c <> a /\ lacks a s'
  end.

(** Collaborators for the examples: every payload decodes to the uniformly
    red image, and the model answers as [answer] says. *)
Definition answering (answer : ModelCall -> Exc string) : Externals :=
  mkExternals
    (fun _ => inr [])
    (fun _ => inr red_image)
    (fun _ _ _ => [])
    answer
    "2024-01-01T12:00:00"
    "12:00".

(** A model that captions and lists objects. *)
Definition fluent (c : ModelCall) : Exc string :=
  match call_prompt c with
  | None => inr "a photo of a dog"
  | Some _ => inr "a person and a car"
  end.

(** A model that fails at every call. *)
Definition broken (c : ModelCall) : Exc string := inl "CUDA out of memory".

(** A model that captions and then fails. *)
Definition tired (c : ModelCall) : Exc string :=
  match call_prompt c with
  | None => inr "a photo of a dog"
  | Some _ => inl "CUDA out of memory"
  end.

(** [str.capitalize] beyond ASCII, for a text with the letter [ŉ] in
    front (U+0149, the bytes 197 and 137 of UTF-8) and ASCII after it:
    Unicode gives that letter the title case [ʼN] (U+02BC then U+004E), two
    characters, the second an upper-case letter.  A text that does not
    start with [ŉ] is capitalized as by [capitalize]. *)
Definition capitalize_unicode (s : string) : string :=
  match s with
  | String c1 (String c2 s') =>
      if Ascii.eqb c1 "197" && Ascii.eqb c2 "137"
      then ("ʼN" ++ lower s')%string
      else capitalize s
  | _ => capitalize s
  end.

(** [translate_to_french] with that [capitalize]: lines 218-223 on a text
    that may start with [ŉ]. *)
Definition translate_to_french_unicode (text : string) : string :=
  let result := lower text in
  let result := apply_table translations result in
  capitalize_unicode result.

(** The first byte, if any, is an ASCII character. *)
Definition head_ascii (s : string) : Prop :=
  match s with
  | EmptyString => True
  | String c _ => nat_of_ascii c < 128
  end.

(** ** Colour analysis: the dict *)

Lemma dict_get_set_same (d : dict) (k : string) (v default : nat) :
  dict_get (dict_set d k v) k default = v.
Proof.
  induction d as [| [k' v'] d IH]; simpl.
  - now rewrite String.eqb_refl.
  - destruct (String.eqb k' k) eqn:E; simpl; rewrite E; auto.
Qed.

Lemma dict_get_set_other (d : dict) (k k' : string) (v default : nat) :
  k' <> k -> dict_get (dict_set d k v) k' default = dict_get d k' default.
Proof.
  intros Hne. induction d as [| [k0 v0] d IH]; simpl.
  - destruct (String.eqb k k') eqn:E; auto.
    apply String.eqb_eq in E. congruence.
  - destruct (String.eqb k0 k) eqn:E; simpl.
    + apply String.eqb_eq in E. subst k0.
      destruct (String.eqb k k') eqn:E'; auto.
      apply String.eqb_eq in E'. congruence.
    + now rewrite IH.
Qed.

Lemma keys_set_present (d : dict) (k : string) (v : nat) :
  In k (keys d) -> keys (dict_set d k v) = keys d.
Proof.
  induction d as [| [k' v'] d IH]; simpl; [tauto |].
  intros Hin. destruct (String.eqb k' k) eqn:E; simpl; auto.
  f_equal. apply IH. destruct Hin as [-> | Hin]; auto.
  now rewrite String.eqb_refl in E.
Qed.

Lemma keys_set_absent (d : dict) (k : string) (v : nat) :
  ~ In k (keys d) -> keys (dict_set d k v) = keys d ++ [k].
Proof.
  induction d as [| [k' v'] d IH]; simpl; auto.
  intros Hnin. destruct (String.eqb k' k) eqn:E; simpl.
  - apply String.eqb_eq in E. tauto.
  - f_equal. apply IH. tauto.
Qed.

Lemma dict_get_entry (d : dict) (k : string) (v default : nat) :
  NoDup (keys d) -> In (k, v) d -> dict_get d k default = v.
Proof.
  induction d as [| [k' v'] d IH]; simpl; [tauto |].
  intros Hnd [Heq | Hin].
  - inversion Heq; subst. now rewrite String.eqb_refl.
  - inversion Hnd as [| ? ? Hnotin Hnd']; subst.
    destruct (String.eqb k' k) eqn:E.
    + apply String.eqb_eq in E. subst k'.
      exfalso. apply Hnotin. change k with (fst (k, v)). now apply in_map.
    + now apply IH.
Qed.

Lemma tally_snoc (pixels : list pixel) (p : pixel) :
  tally (pixels ++ [p]) = count_pixel (tally pixels) p.
Proof. unfold tally. now rewrite fold_left_app. Qed.

Lemma seen_snoc (l : list string) (c : string) :
  seen (l ++ [c]) =
  if in_dec string_dec c (seen l) then seen l else seen l ++ [c].
Proof. unfold seen. now rewrite fold_left_app. Qed.

Lemma labels_snoc (pixels : list pixel) (p : pixel) :
  labels (pixels ++ [p]) = labels pixels ++ [classify_pixel p].
Proof. unfold labels. now rewrite map_app. Qed.

(** The keys of the dict are the labels met, in the order they were met. *)
Lemma keys_tally (pixels : list pixel) :
  keys (tally pixels) = seen (labels pixels).
Proof.
  induction pixels as [| p pixels IH] using rev_ind; [reflexivity |].
  rewrite tally_snoc, labels_snoc, seen_snoc. unfold count_pixel.
  rewrite <- IH.
  destruct (in_dec string_dec (classify_pixel p) (keys (tally pixels))).
  - now apply keys_set_present.
  - now apply keys_set_absent.
Qed.

(** The dict holds the count of each bucket. *)
Lemma dict_get_tally (pixels : list pixel) (c : string) :
  dict_get (tally pixels) c 0 = bucket_count pixels c.
Proof.
  unfold bucket_count.
  induction pixels as [| p pixels IH] using rev_ind; [reflexivity |].
  rewrite tally_snoc, labels_snoc, count_occ_app. unfold count_pixel. simpl.
  destruct (string_dec (classify_pixel p) c) as [<- | Hne].
  - rewrite dict_get_set_same, IH. lia.
  - rewrite dict_get_set_other by congruence. rewrite IH. lia.
Qed.

(** ** Colour analysis: first occurrences *)

Lemma in_seen (l : list string) (c : string) : In c (seen l) <-> In c l.
Proof.
  induction l as [| x l IH] using rev_ind; [reflexivity |].
  rewrite seen_snoc, in_app_iff. simpl.
  destruct (in_dec string_dec x (seen l)) as [Hin | Hnin].
  - rewrite IH. split; [tauto |]. intros [H | [<- | []]]; auto.
    now apply IH.
  - rewrite in_app_iff, IH. simpl. tauto.
Qed.

Lemma NoDup_seen (l : list string) : NoDup (seen l).
Proof.
  induction l as [| x l IH] using rev_ind; [constructor |].
  rewrite seen_snoc.
  destruct (in_dec string_dec x (seen l)) as [Hin | Hnin]; auto.
  apply NoDup_app; auto.
  - repeat constructor. simpl. tauto.
  - intros a Ha [<- | []]. contradiction.
Qed.

Lemma index_of_lt (c : string) (l : list string) :
  In c l -> index_of c l < List.length l.
Proof.
  induction l as [| x l IH]; simpl; [tauto |].
  intros Hin. destruct (string_dec x c); [lia |].
  destruct Hin; [congruence |]. apply IH in H. lia.
Qed.

Lemma index_of_app_present (c : string) (l l' : list string) :
  In c l -> index_of c (l ++ l') = index_of c l.
Proof.
  induction l as [| x l IH]; simpl; [tauto |].
  intros Hin. destruct (string_dec x c); auto.
  destruct Hin; [congruence |]. now rewrite IH.
Qed.

Lemma index_of_snoc_new (c : string) (l : list string) :
  ~ In c l -> index_of c (l ++ [c]) = List.length l.
Proof.
  induction l as [| x l IH]; simpl.
  - intros _. now destruct (string_dec c c).
  - intros Hnin. destruct (string_dec x c); [tauto |].
    rewrite IH; tauto.
Qed.

Lemma StronglySorted_weaken {A : Type} (R R' : A -> A -> Prop) (l : list A) :
  (forall a b, In a l -> In b l -> R a b -> R' a b) ->
  StronglySorted R l -> StronglySorted R' l.
Proof.
  intros Hw Hs. induction Hs as [| a l Hs IH Hall]; constructor.
  - apply IH. intros x y Hx Hy. apply Hw; now right.
  - rewrite Forall_forall in *. intros x Hx.
    apply Hw; [now left | now right | now apply Hall].
Qed.

Lemma StronglySorted_snoc {A : Type} (R : A -> A -> Prop) (l : list A) (x : A) :
  StronglySorted R l -> Forall (fun a => R a x) l ->
  StronglySorted R (l ++ [x]).
Proof.
  intros Hs Hall. induction Hs as [| a l Hs IH Ha]; simpl.
  - repeat constructor.
  - inversion Hall; subst. constructor; auto.
    apply Forall_app. split; auto.
Qed.

(** The distinct labels are in the order of their first occurrences. *)
Lemma seen_sorted (l : list string) :
  StronglySorted (fun a b => index_of a l < index_of b l) (seen l).
Proof.
  induction l as [| x l IH] using rev_ind; [constructor |].
  rewrite seen_snoc.
  assert (Hold : StronglySorted
            (fun a b => index_of a (l ++ [x]) < index_of b (l ++ [x]))
            (seen l)).
  { eapply StronglySorted_weaken; [| exact IH].
    intros a b Ha Hb Hab.
    apply (proj1 (in_seen l a)) in Ha. apply (proj1 (in_seen l b)) in Hb.
    rewrite (index_of_app_present a l [x] Ha).
    rewrite (index_of_app_present b l [x] Hb). exact Hab. }
  destruct (in_dec string_dec x (seen l)) as [Hin | Hnin]; auto.
  apply StronglySorted_snoc; auto.
  apply Forall_forall. intros a Ha. apply (proj1 (in_seen l a)) in Ha.
  rewrite (index_of_app_present a l [x] Ha).
  rewrite index_of_snoc_new.
  - now apply index_of_lt.
  - intros Hx. apply Hnin. now apply in_seen.
Qed.

(** ** Colour analysis: the sort *)

Lemma insert_desc_perm (x : string * nat) (l : list (string * nat)) :
  Permutation (insert_desc x l) (x :: l).
Proof.
  induction l as [| y l IH]; simpl; auto.
  destruct (snd y <=? snd x)%nat; auto.
  rewrite IH. apply perm_swap.
Qed.

Lemma sorted_desc_perm (l : list (string * nat)) :
  Permutation (sorted_desc l) l.
Proof.
  induction l as [| x l IH]; simpl; auto.
  rewrite insert_desc_perm. now constructor.
Qed.

Section StableSort.

(** [T] is the order the items stand in before the sort. *)
Variable T : string * nat -> string * nat -> Prop.

Lemma sorted_rel_count (x y : string * nat) :
  sorted_rel T x y -> snd y <= snd x.
Proof. unfold sorted_rel. lia. Qed.

Lemma insert_desc_sorted (x : string * nat) (l : list (string * nat)) :
  Forall (T x) l -> StronglySorted (sorted_rel T) l ->
  StronglySorted (sorted_rel T) (insert_desc x l).
Proof.
  intros HT Hs. induction Hs as [| y l Hs IH Hy]; simpl.
  - repeat constructor.
  - inversion HT as [| ? ? HTy HTl]; subst.
    destruct (snd y <=? snd x)%nat eqn:E.
    + apply Nat.leb_le in E. constructor; [now constructor |].
      constructor.
      * unfold sorted_rel. destruct (Nat.eq_dec (snd x) (snd y)); [auto | lia].
      * rewrite Forall_forall in *. intros z Hz.
        pose proof (sorted_rel_count _ _ (Hy z Hz)).
        unfold sorted_rel.
        destruct (Nat.eq_dec (snd x) (snd z)); [auto | lia].
    + apply Nat.leb_gt in E. constructor; auto.
      rewrite Forall_forall in *. intros z Hz.
      apply (Permutation_in _ (insert_desc_perm x l)) in Hz.
      destruct Hz as [<- | Hz]; auto.
      left. lia.
Qed.

(** The sort is stable: by decreasing count, and among equal counts in the
    order of the input. *)
Lemma sorted_desc_sorted (l : list (string * nat)) :
  StronglySorted T l -> StronglySorted (sorted_rel T) (sorted_desc l).
Proof.
  intros Hs. induction Hs as [| x l Hs IH Hx]; simpl; [constructor |].
  apply insert_desc_sorted; auto.
  rewrite Forall_forall in *. intros z Hz. apply Hx.
  now apply (Permutation_in _ (sorted_desc_perm l)).
Qed.

End StableSort.

(** ** Colour analysis: the result *)

Lemma StronglySorted_map {A B : Type} (f : A -> B) (R : B -> B -> Prop)
  (l : list A) :
  StronglySorted (fun a b => R (f a) (f b)) l <-> StronglySorted R (map f l).
Proof.
  induction l as [| x l IH]; simpl.
  - split; constructor.
  - split; intros H; inversion H; subst; constructor;
      try (now apply IH); rewrite Forall_map in *; assumption.
Qed.

Lemma in_firstn {A : Type} (n : nat) (l : list A) (x : A) :
  In x (firstn n l) -> In x l.
Proof.
  intros H. rewrite <- (firstn_skipn n l). apply in_or_app. now left.
Qed.

Lemma classify_pixel_bucket (p : pixel) : In (classify_pixel p) color_buckets.
Proof.
  destruct p as [[r g] b]. unfold classify_pixel, color_buckets.
  repeat match goal with
         | |- context [if ?c then _ else _] => destruct c
         end; simpl; tauto.
Qed.

Lemma NoDup_keys_tally (pixels : list pixel) : NoDup (keys (tally pixels)).
Proof. rewrite keys_tally. apply NoDup_seen. Qed.

Lemma tally_entry (pixels : list pixel) (k : string) (v : nat) :
  In (k, v) (tally pixels) -> v = bucket_count pixels k.
Proof.
  intros Hin. rewrite <- dict_get_tally. symmetry.
  apply dict_get_entry; auto using NoDup_keys_tally.
Qed.

Lemma ranking_perm (pixels : list pixel) :
  Permutation (ranking pixels) (seen (labels pixels)).
Proof.
  unfold ranking. rewrite <- keys_tally. unfold keys.
  apply Permutation_map, sorted_desc_perm.
Qed.

Lemma ranking_sorted (pixels : list pixel) :
  StronglySorted (ranks_before pixels) (ranking pixels).
Proof.
  unfold ranking.
  apply (proj1 (StronglySorted_map fst (ranks_before pixels) _)).
  set (T := fun x y : string * nat =>
              first_seen pixels (fst x) < first_seen pixels (fst y)).
  apply StronglySorted_weaken with (R := sorted_rel T).
  - intros [k1 v1] [k2 v2] H1 H2 HR.
    apply (Permutation_in _ (sorted_desc_perm _)) in H1, H2.
    apply tally_entry in H1, H2. subst v1 v2.
    unfold sorted_rel, T in HR. simpl in *. exact HR.
  - apply sorted_desc_sorted. unfold T.
    apply (proj2 (StronglySorted_map fst
             (fun a b => first_seen pixels a < first_seen pixels b) _)).
    fold (keys (tally pixels)). rewrite keys_tally. apply seen_sorted.
Qed.

Lemma top_colors_ranking (pixels : list pixel) :
  top_colors pixels = firstn 3 (ranking pixels).
Proof. unfold top_colors, ranking. now rewrite firstn_map. Qed.

Lemma tally_repeat (p : pixel) (n m : nat) :
  fold_left count_pixel (repeat p n) [(classify_pixel p, m)] =
  [(classify_pixel p, m + n)].
Proof.
  revert m. induction n as [| n IH]; intros m; simpl.
  - f_equal. f_equal. lia.
  - unfold count_pixel at 2. simpl. rewrite String.eqb_refl.
    replace (m + 1) with (S m) by lia. rewrite IH. f_equal. f_equal. lia.
Qed.

Lemma top_colors_uniform (p : pixel) (n : nat) :
  0 < n -> top_colors (repeat p n) = [classify_pixel p].
Proof.
  destruct n as [| n]; [lia | intros _].
  unfold top_colors, tally. simpl. unfold count_pixel at 2. simpl.
  now rewrite tally_repeat.
Qed.

Lemma red_image_pixels (ext : Externals) :
  data (resize ext red_image 150 150) = repeat (255, 0, 0)%Z (150 * 150).
Proof. reflexivity. Qed.

(** C1: whatever the image, [analyze_colors] returns at most three labels,
    each one of the six buckets; they are the first three of the ranking of
    the buckets met in the row-by-row scan of the 150x150 image, ordered by
    decreasing pixel count and, among equal counts, by first occurrence in
    the scan. *)
Theorem analyze_colors_top3 (ext : Externals) (image : Image) :
  let pixels := data (resize ext image 150 150) in
  let colors := analyze_colors ext image in
  List.length colors <= 3 /\
  Forall (fun c => In c color_buckets) colors /\
  exists ranked,
    NoDup ranked /\
    (forall c, In c ranked <-> In c (labels pixels)) /\
    StronglySorted (ranks_before pixels) ranked /\
    colors = firstn 3 ranked.
Proof.
  intros pixels colors.
  assert (Hcol : colors = firstn 3 (ranking pixels))
    by apply top_colors_ranking.
  assert (Hmem : forall c, In c (ranking pixels) <-> In c (labels pixels)).
  { intros c. split; intros H.
    - apply in_seen. now apply (Permutation_in _ (ranking_perm pixels)).
    - apply (Permutation_in _ (Permutation_sym (ranking_perm pixels))).
      now apply in_seen. }
  split; [| split].
  - rewrite Hcol. apply firstn_le_length.
  - rewrite Hcol. apply Forall_forall. intros c Hc.
    apply in_firstn, Hmem in Hc. unfold labels in Hc.
    apply in_map_iff in Hc. destruct Hc as [p [<- _]].
    apply classify_pixel_bucket.
  - exists (ranking pixels). repeat split; try apply Hmem; auto.
    + apply (Permutation_NoDup (l := seen (labels pixels))).
      * symmetry. apply ranking_perm.
      * apply NoDup_seen.
    + apply ranking_sorted.
Qed.

(** C2: a pixel with channels in 0..255 gets one label, which is one of six
    distinct buckets, by the first rule that holds, taken in the order red,
    green, blue, white, black, and mixed when none does; so a pixel with
    all channels above 200 whose red channel is the greatest is red (label
    [rouge]), not white (label [blanc]). *)
Theorem classify_pixel_precedence (r g b : Z) :
  byte_range r -> byte_range g -> byte_range b ->
  let c := classify_pixel (r, g, b) in
  In c color_buckets /\ NoDup color_buckets /\
  (red_rule r g b -> c = "rouge") /\
  (~ red_rule r g b -> green_rule r g b -> c = "vert") /\
  (~ red_rule r g b -> ~ green_rule r g b -> blue_rule r g b -> c = "bleu") /\
  (~ red_rule r g b -> ~ green_rule r g b -> ~ blue_rule r g b ->
   white_rule r g b -> c = "blanc") /\
  (~ red_rule r g b -> ~ green_rule r g b -> ~ blue_rule r g b ->
   ~ white_rule r g b -> black_rule r g b -> c = "noir") /\
  (~ red_rule r g b -> ~ green_rule r g b -> ~ blue_rule r g b ->
   ~ white_rule r g b -> ~ black_rule r g b -> c = "mixte") /\
  (white_rule r g b -> red_rule r g b -> c = "rouge" /\ c <> "blanc").
Proof.
  intros _ _ _ c.
  assert (Hred : red_rule r g b -> c = "rouge").
  { unfold red_rule, c, classify_pixel. intros [H1 H2].
    apply Z.gtb_gt in H1, H2. now rewrite H1, H2. }
  split; [apply classify_pixel_bucket |].
  split; [unfold color_buckets; repeat constructor; simpl; intuition congruence |].
  split; [exact Hred |].
  unfold red_rule, green_rule, blue_rule, white_rule, black_rule in *.
  unfold c, classify_pixel.
  repeat split; intros;
    repeat match goal with
           | |- context [(?x >? ?y)%Z] =>
               destruct (Z.gtb_spec x y); simpl
           | |- context [(?x <? ?y)%Z] =>
               destruct (Z.ltb_spec x y); simpl
           end; try reflexivity; try lia; try discriminate.
Qed.

Lemma classify_pixel_precedence_witness :
  classify_pixel (250, 240, 240)%Z = "rouge" /\
  classify_pixel (250, 240, 240)%Z <> "blanc".
Proof.
  apply (classify_pixel_precedence 250 240 240);
    unfold byte_range, white_rule, red_rule; lia.
Defined.

(** C9: when the 150x150 image has at least one pixel, [analyze_colors]
    returns one, two or three labels, never none. *)
Theorem analyze_colors_nonempty (ext : Externals) (image : Image) :
  data (resize ext image 150 150) <> [] ->
  1 <= List.length (analyze_colors ext image) <= 3.
Proof.
  intros Hne. unfold analyze_colors. rewrite top_colors_ranking.
  split; [| apply firstn_le_length].
  destruct (data (resize ext image 150 150)) as [| p ps]; [congruence |].
  assert (Hin : In (classify_pixel p) (ranking (p :: ps))).
  { apply (Permutation_in _ (Permutation_sym (ranking_perm _))).
    apply in_seen. now left. }
  destruct (ranking (p :: ps)); simpl in *; [tauto | lia].
Qed.

Lemma analyze_colors_nonempty_witness :
  1 <= List.length (analyze_colors stub red_image) <= 3.
Proof.
  apply (analyze_colors_nonempty stub red_image).
  rewrite red_image_pixels. discriminate.
Defined.

Lemma red_image_counts (ext : Externals) (c : string) :
  bucket_count (data (resize ext red_image 150 150)) c =
  if string_dec c "rouge" then 150 * 150 else 0.
Proof.
  rewrite red_image_pixels. unfold bucket_count, labels.
  rewrite map_repeat. change (classify_pixel (255, 0, 0)%Z) with "rouge".
  destruct (string_dec c "rouge").
  - now apply count_occ_repeat_eq.
  - now apply count_occ_repeat_neq.
Qed.

(** C7, as the program has it: for the 150x150 image with all pixels
    [(255, 0, 0)], [analyze_colors] returns the one-element list [rouge],
    the label the program gives the red bucket; that bucket holds all the
    pixels and every other one holds none. *)
Theorem analyze_colors_red_image (ext : Externals) :
  analyze_colors ext red_image = ["rouge"] /\
  bucket_count (data (resize ext red_image 150 150)) "rouge" = 150 * 150 /\
  forall c, c <> "rouge" ->
            bucket_count (data (resize ext red_image 150 150)) c = 0.
Proof.
  split; [| split].
  - unfold analyze_colors. rewrite red_image_pixels.
    rewrite top_colors_uniform by lia. reflexivity.
  - rewrite red_image_counts. now destruct (string_dec "rouge" "rouge").
  - intros c Hc. rewrite red_image_counts. now destruct (string_dec c "rouge").
Qed.

(** C7, as the specification words it, fails: the list returned for the
    uniformly red image is not [red]. *)
Lemma analyze_colors_red_image_not_red :
  analyze_colors stub red_image <> ["red"].
Proof.
  unfold analyze_colors. rewrite red_image_pixels.
  rewrite top_colors_uniform by lia. discriminate.
Qed.

(** ** Substrings *)

Lemma prefix_app (a s : string) :
  prefix a s = true <-> exists post, s = (a ++ post)%string.
Proof.
  revert s. induction a as [| c a IH]; intros s; simpl.
  - split; [exists s; reflexivity | intros _; now destruct s].
  - destruct s as [| c' s].
    + split; [discriminate | intros [post H]; discriminate].
    + simpl. destruct (ascii_dec c c') as [<- | Hne].
      * rewrite IH. split; intros [post H]; exists post; congruence.
      * split; [discriminate | intros [post H]; congruence].
Qed.

Lemma str_in_unfold (sub s : string) :
  str_in sub s =
  prefix sub s ||
  match s with
  | EmptyString => false
  | String _ s' => str_in sub s'
  end.
Proof. now destruct s. Qed.

Lemma str_in_occurs (sub s : string) : str_in sub s = true <-> occurs sub s.
Proof.
  split.
  - induction s as [| c s IH]; rewrite str_in_unfold; intros H;
      apply orb_true_iff in H; destruct H as [H | H]; try discriminate.
    + apply prefix_app in H. destruct H as [post ->].
      now exists EmptyString, post.
    + apply prefix_app in H. destruct H as [post ->].
      now exists EmptyString, post.
    + destruct (IH H) as [pre [post ->]].
      now exists (String c pre), post.
  - intros [pre [post ->]]. induction pre as [| c pre IH].
    + rewrite str_in_unfold. apply orb_true_iff. left.
      apply prefix_app. now exists post.
    + simpl. rewrite IH. apply orb_true_r.
Qed.

Lemma str_in_not_occurs (sub s : string) :
  str_in sub s = false -> ~ occurs sub s.
Proof. intros H Ho. apply str_in_occurs in Ho. congruence. Qed.

Lemma Subseq_filter {A : Type} (f : A -> bool) (l : list A) :
  Subseq (filter f l) l.
Proof.
  induction l as [| x l IH]; simpl; [constructor |].
  destruct (f x); now constructor.
Qed.

(** ** The endpoint and the model *)

(** C6: [generate_description] makes one call of the model, with the
    parameters of the detail level: for [normal] no prompt, [max_length]
    50 and 3 beams; for [detailed] the prompt [a photography of],
    [max_length] 100 and 5 beams.  The description is made of the answer
    to that call. *)
Theorem generate_description_call (ext : Externals) (image : Image)
  (language : string) (calls : list ModelCall) :
  let normal := mkCall image None 50 (Some 3%Z) in
  let detailed := mkCall image (Some "a photography of") 100 (Some 5%Z) in
  generate_description ext image language "normal" calls =
    (match blip ext normal with
     | inr description_en => inr (translate_if_needed language description_en)
     | inl e => inl e
     end, calls ++ [normal]) /\
  generate_description ext image language "detailed" calls =
    (match blip ext detailed with
     | inr description_en => inr (translate_if_needed language description_en)
     | inl e => inl e
     end, calls ++ [detailed]).
Proof.
  intros normal detailed. unfold generate_description, bind, generate, ret.
  simpl. fold normal detailed.
  split; [destruct (blip ext normal) | destruct (blip ext detailed)];
    reflexivity.
Qed.

(** C5, as the program has it: a request that cannot be turned into an
    image is answered with a failure and the model is not called; the
    status is 400, with the error [Aucune image fournie], when the [image]
    field is missing, and 500, with the text of the exception raised as
    the error, when the payload is not base64 or the bytes are not an
    image. *)
Theorem analyze_image_input_error (ext : Externals) (data : Json)
  (calls : list ModelCall) :
  InputError ext data ->
  exists status error,
    analyze_image ext data calls = (inr (Failure status error), calls) /\
    (json_get data "image" = None ->
     status = 400%Z /\ error = "Aucune image fournie") /\
    (json_get data "image" <> None -> status = 500%Z) /\
    (forall payload e,
       json_get data "image" = Some payload ->
       b64decode ext payload = inl e ->
       status = 500%Z /\ error = e) /\
    (forall payload image_data e,
       json_get data "image" = Some payload ->
       b64decode ext payload = inr image_data ->
       image_open ext image_data = inl e ->
       status = 500%Z /\ error = e).
Proof.
  intros [Hmiss | payload e Hget Hdec | payload e image_data Hget Hdec Hopen];
    unfold analyze_image, try_except, bind, lift, ret, raise;
    rewrite Hget || rewrite Hmiss.
  - exists 400%Z, "Aucune image fournie".
    repeat split; intros; congruence.
  - rewrite Hdec. exists 500%Z, e.
    repeat split; intros; congruence.
  - rewrite Hdec, Hopen. exists 500%Z, e.
    repeat split; intros; congruence.
Qed.

Lemma analyze_image_input_error_witness :
  exists status error,
    analyze_image stub [("image", "abc")] [] =
      (inr (Failure status error), []) /\
    (json_get [("image", "abc")] "image" = None ->
     status = 400%Z /\ error = "Aucune image fournie") /\
    (json_get [("image", "abc")] "image" <> None -> status = 500%Z) /\
    (forall payload e,
       json_get [("image", "abc")] "image" = Some payload ->
       b64decode stub payload = inl e ->
       status = 500%Z /\ error = e) /\
    (forall payload image_data e,
       json_get [("image", "abc")] "image" = Some payload ->
       b64decode stub payload = inr image_data ->
       image_open stub image_data = inl e ->
       status = 500%Z /\ error = e).
Proof.
  apply (analyze_image_input_error stub [("image", "abc")] []).
  apply (invalid_base64 stub _ "abc" "Incorrect padding"); reflexivity.
Defined.

(** C5, as the specification words it, fails: a payload that is not
    base64 is an input error, and the answer is a 500, not a client
    error. *)
Lemma analyze_image_invalid_base64_not_client_error :
  InputError stub [("image", "abc")] /\
  analyze_image stub [("image", "abc")] [] =
    (inr (Failure 500 "Incorrect padding"), []) /\
  ~ client_error (Failure 500 "Incorrect padding").
Proof.
  split; [| split].
  - apply (invalid_base64 stub _ "abc" "Incorrect padding"); reflexivity.
  - reflexivity.
  - simpl. lia.
Qed.

(** C3, as the program has it: [detect_objects] asks the model once and,
    from the text it answers, returns the entries of the vocabulary that
    occur in the lower-cased text, in the order of the vocabulary, when
    there is one; when there is none it returns the one tag
    [objet non identifié]. *)
Theorem detect_objects_tags (ext : Externals) (image : Image)
  (calls : list ModelCall) :
  let c := mkCall image (Some "What objects are in this image?") 30 None in
  match blip ext c with
  | inl e => detect_objects ext image calls = (inl e, calls ++ [c])
  | inr objects_text =>
      let matched obj :=
        In obj common_objects /\ occurs obj (lower objects_text) in
      exists tags,
        detect_objects ext image calls = (inr tags, calls ++ [c]) /\
        ((exists obj, matched obj) ->
         tags <> [] /\ Subseq tags common_objects /\
         forall obj, In obj tags <-> matched obj) /\
        ((forall obj, ~ matched obj) -> tags = ["objet non identifié"])
  end.
Proof.
  intros c. unfold detect_objects, bind, generate, ret. fold c.
  destruct (blip ext c) as [e | objects_text]; [reflexivity |].
  set (matched := fun obj =>
         In obj common_objects /\ occurs obj (lower objects_text)).
  exists (parse_objects objects_text).
  split; [reflexivity |].
  unfold parse_objects.
  set (f := fun obj => str_in obj (lower objects_text)).
  assert (Hf : forall obj, In obj (filter f common_objects) <-> matched obj).
  { intros obj. rewrite filter_In. unfold matched, f.
    now rewrite str_in_occurs. }
  pose proof (Subseq_filter f common_objects) as Hsub.
  destruct (filter f common_objects) as [| t ts] eqn:E.
  - split; [| reflexivity].
    intros [obj Hm]. apply Hf in Hm. destruct Hm.
  - split.
    + intros _. split; [discriminate |]. split; [exact Hsub | exact Hf].
    + intros Hnone. exfalso. apply (Hnone t), Hf. now left.
Qed.

(** C3, as the specification words it, fails: when the model answers
    [a dog] no entry of the vocabulary occurs, and the tag returned is not
    [unidentified object]. *)
Lemma detect_objects_sentinel_not_english :
  (forall obj, In obj common_objects -> ~ occurs obj (lower "a dog")) /\
  detect_objects stub red_image [] <>
    (inr ["unidentified object"],
     [mkCall red_image (Some "What objects are in this image?") 30 None]).
Proof.
  split.
  - intros obj Hin. apply str_in_not_occurs.
    simpl in Hin. repeat destruct Hin as [<- | Hin]; try reflexivity.
    destruct Hin.
  - unfold detect_objects, bind, generate, ret. simpl. intros H.
    inversion H.
Qed.

(** ** Case of letters *)

Ltac ascii_cases c :=
  destruct c as [[] [] [] [] [] [] [] []]; reflexivity.

Lemma is_upper_lower_char (c : ascii) : is_upper (lower_char c) = false.
Proof. ascii_cases c. Qed.

Lemma lower_char_idem (c : ascii) : lower_char (lower_char c) = lower_char c.
Proof. ascii_cases c. Qed.

Lemma lower_upper_char (c : ascii) : lower_char (upper_char c) = lower_char c.
Proof. ascii_cases c. Qed.

Lemma upper_lower_char (c : ascii) : upper_char (lower_char c) = upper_char c.
Proof. ascii_cases c. Qed.

Lemma lower_app (a b : string) :
  lower (a ++ b) = (lower a ++ lower b)%string.
Proof. induction a as [| c a IH]; simpl; congruence. Qed.

Lemma lower_idem (s : string) : lower (lower s) = lower s.
Proof.
  induction s as [| c s IH]; simpl; [reflexivity |].
  now rewrite lower_char_idem, IH.
Qed.

Lemma lower_capitalize (s : string) : lower (capitalize s) = lower s.
Proof.
  destruct s as [| c s]; simpl; [reflexivity |].
  now rewrite lower_upper_char, lower_idem.
Qed.

Lemma capitalize_lower (s : string) : capitalize (lower s) = capitalize s.
Proof.
  destruct s as [| c s]; simpl; [reflexivity |].
  now rewrite upper_lower_char, lower_idem.
Qed.

Lemma capitalize_lowered (s : string) :
  lower s = s -> capitalize s = capitalize_first s.
Proof.
  destruct s as [| c s]; simpl; [reflexivity |].
  intros H. inversion H. congruence.
Qed.

Lemma get_lower (s : string) (i : nat) (c : ascii) :
  get i (lower s) = Some c -> is_upper c = false.
Proof.
  revert i. induction s as [| c' s IH]; intros i; simpl; [discriminate |].
  destruct i as [| i].
  - intros H. inversion H. apply is_upper_lower_char.
  - apply IH.
Qed.

(** ** Replacement *)

Lemma str_length_app (a b : string) :
  String.length (a ++ b) = String.length a + String.length b.
Proof. induction a as [| c a IH]; simpl; congruence. Qed.

Lemma replace_from_skip (old new pre s : string) :
  replace_from old new (String.length pre) (pre ++ s) =
  replace_from old new 0 s.
Proof. induction pre as [| c pre IH]; simpl; auto. Qed.

(** Where [old] starts, [new] is put and the scan goes on after [old]. *)
Lemma replace_from_hit (old new s : string) :
  old <> EmptyString ->
  replace_from old new 0 (old ++ s) = (new ++ replace_from old new 0 s)%string.
Proof.
  destruct old as [| c old]; [congruence | intros _].
  assert (H : prefix (String c old) (String c old ++ s) = true)
    by (apply prefix_app; now exists s).
  change (String c old ++ s)%string with (String c (old ++ s)) in *.
  cbn [replace_from]. rewrite H. f_equal.
  cbn [String.length]. replace (S (String.length old) - 1)
    with (String.length old) by lia.
  apply replace_from_skip.
Qed.

(** Elsewhere the character is copied. *)
Lemma replace_from_copy (old new : string) (c : ascii) (s : string) :
  prefix old (String c s) = false ->
  replace_from old new 0 (String c s) = String c (replace_from old new 0 s).
Proof. intros H. cbn [replace_from]. now rewrite H. Qed.

(** [replace_from] computes the relation [replaced]. *)
Lemma replace_from_replaced (old new : string) :
  old <> EmptyString ->
  forall s, replaced old new s (replace_from old new 0 s).
Proof.
  intros Hold s.
  remember (String.length s) as n eqn:Hn.
  revert s Hn. induction n as [n IH] using lt_wf_ind. intros s Hn.
  destruct s as [| c s]; [constructor |].
  destruct (prefix old (String c s)) eqn:E.
  - apply prefix_app in E. destruct E as [post E]. rewrite E.
    rewrite replace_from_hit by assumption. constructor.
    apply (IH (String.length post)); [| reflexivity].
    subst n. rewrite E, str_length_app.
    destruct old; [congruence | simpl; lia].
  - rewrite replace_from_copy by assumption. constructor; [assumption |].
    apply (IH (String.length s)); [subst n; simpl; lia | reflexivity].
Qed.

(** ... and [replaced] relates a string to nothing else. *)
Lemma replaced_replace_from (old new s t : string) :
  old <> EmptyString ->
  replaced old new s t -> t = replace_from old new 0 s.
Proof.
  intros Hold H. induction H as [| s t H IH | c s t Hp H IH].
  - reflexivity.
  - rewrite replace_from_hit by assumption. congruence.
  - rewrite replace_from_copy by assumption. congruence.
Qed.

Lemma replace_nonempty (old new s : string) :
  old <> EmptyString -> replace old new s = replace_from old new 0 s.
Proof. destruct old; [congruence | reflexivity]. Qed.

Lemma replace_from_lowered (old new : string) :
  lower new = new ->
  forall s skip, lower s = s ->
    lower (replace_from old new skip s) = replace_from old new skip s.
Proof.
  intros Hnew. induction s as [| c s IH]; intros skip Hs; [reflexivity |].
  simpl in Hs. inversion Hs as [[Hc Hs']]. rewrite Hc, Hs'.
  cbn [replace_from]. destruct skip as [| k]; [| now apply IH].
  destruct (prefix old (String c s)).
  - rewrite lower_app, Hnew. f_equal. now apply IH.
  - simpl. rewrite Hc. f_equal. now apply IH.
Qed.

Lemma replace_empty_lowered (new s : string) :
  lower new = new -> lower s = s ->
  lower (replace_empty new s) = replace_empty new s.
Proof.
  intros Hnew. induction s as [| c s IH]; intros Hs; simpl; [assumption |].
  simpl in Hs. inversion Hs as [[Hc Hs']]. rewrite Hc, Hs'.
  rewrite lower_app, Hnew. simpl. rewrite Hc. do 2 f_equal. now apply IH.
Qed.

Lemma replace_lowered (old new s : string) :
  lower new = new -> lower s = s -> lower (replace old new s) = replace old new s.
Proof.
  intros Hnew Hs. destruct old; simpl.
  - now apply replace_empty_lowered.
  - now apply replace_from_lowered.
Qed.

(** A phrase that does not occur leaves the text as it is. *)
Lemma replace_from_absent (old new s : string) :
  str_in old s = false -> replace_from old new 0 s = s.
Proof.
  induction s as [| c s IH]; [reflexivity |].
  rewrite str_in_unfold. intros H. apply orb_false_iff in H.
  destruct H as [Hp Hs]. rewrite replace_from_copy by assumption.
  f_equal. now apply IH.
Qed.

(** ** The table *)

Lemma translations_keys_nonempty :
  Forall (fun p : string * string => fst p <> EmptyString) translations.
Proof. unfold translations. repeat constructor; discriminate. Qed.

Lemma translations_lowered :
  Forall (fun p : string * string => lower (snd p) = snd p) translations.
Proof. unfold translations. repeat constructor. Qed.

Lemma apply_table_cons (en fr : string) (table : list (string * string))
  (s : string) :
  apply_table ((en, fr) :: table) s = apply_table table (replace en fr s).
Proof. reflexivity. Qed.

Lemma apply_table_applied (table : list (string * string)) :
  Forall (fun p : string * string => fst p <> EmptyString) table ->
  forall s, table_applied table s (apply_table table s).
Proof.
  induction 1 as [| [en fr] table Hen _ IH]; intros s; [constructor |].
  rewrite apply_table_cons. econstructor; [| apply IH].
  rewrite replace_nonempty by assumption.
  now apply replace_from_replaced.
Qed.

Lemma table_applied_unique (table : list (string * string)) (s r : string) :
  Forall (fun p : string * string => fst p <> EmptyString) table ->
  table_applied table s r -> r = apply_table table s.
Proof.
  intros Hne H. induction H as [| en fr table s s1 s2 Hrep H IH].
  - reflexivity.
  - inversion Hne as [| ? ? Hen Hne']; subst. simpl in Hen.
    rewrite apply_table_cons, replace_nonempty by assumption.
    apply replaced_replace_from in Hrep; [| assumption]. subst s1. auto.
Qed.

Lemma apply_table_lowered (table : list (string * string)) :
  Forall (fun p : string * string => lower (snd p) = snd p) table ->
  forall s, lower s = s -> lower (apply_table table s) = apply_table table s.
Proof.
  induction 1 as [| [en fr] table Hfr _ IH]; intros s Hs; [assumption |].
  rewrite apply_table_cons. apply IH. now apply replace_lowered.
Qed.

Lemma apply_table_absent (table : list (string * string)) (s : string) :
  Forall (fun p : string * string => fst p <> EmptyString) table ->
  (forall en fr, In (en, fr) table -> ~ occurs en s) ->
  apply_table table s = s.
Proof.
  induction 1 as [| [en fr] table Hen _ IH]; intros Habs; [reflexivity |].
  rewrite apply_table_cons, replace_nonempty by assumption.
  rewrite replace_from_absent.
  - apply IH. intros en' fr' Hin. apply (Habs en' fr'). now right.
  - destruct (str_in en s) eqn:E; [| reflexivity].
    apply str_in_occurs in E. exfalso. apply (Habs en fr); [now left | easy].
Qed.

Lemma translate_capitalize (text : string) :
  translate_to_french (capitalize text) = translate_to_french text.
Proof. unfold translate_to_french. now rewrite lower_capitalize. Qed.

Lemma translate_absent (text : string) :
  no_table_phrase text -> translate_to_french text = capitalize text.
Proof.
  intros H. unfold translate_to_french.
  rewrite apply_table_absent; auto using translations_keys_nonempty.
  apply capitalize_lower.
Qed.

(** ** The translator *)

(** C4: for an English (ASCII) text, [translate_to_french] gives the text
    in lower case, with each pair of the table applied in the order of the
    table, as a replacement of all the occurrences of its English phrase
    from the left without overlap, to the result of the pair before, and
    with the first character of the outcome in upper case; the text is
    translated when the language is [fr] and returned as it is for any
    other language. *)
Theorem translate_to_french_algorithm (language text : string) :
  is_ascii text = true ->
  (exists r,
     table_applied translations (lower text) r /\
     (forall r', table_applied translations (lower text) r' -> r' = r) /\
     translate_to_french text = capitalize_first r) /\
  translate_if_needed "fr" text = translate_to_french text /\
  (language <> "fr" -> translate_if_needed language text = text).
Proof.
  intros _. split; [| split].
  - exists (apply_table translations (lower text)). split; [| split].
    + apply apply_table_applied, translations_keys_nonempty.
    + intros r'. apply table_applied_unique, translations_keys_nonempty.
    + unfold translate_to_french. apply capitalize_lowered.
      apply apply_table_lowered; [apply translations_lowered |].
      apply lower_idem.
  - reflexivity.
  - intros Hne. unfold translate_if_needed.
    destruct (String.eqb language "fr") eqn:E; [| reflexivity].
    apply String.eqb_eq in E. contradiction.
Qed.

Lemma translate_to_french_algorithm_witness :
  (exists r,
     table_applied translations (lower "a photo of a dog") r /\
     (forall r',
        table_applied translations (lower "a photo of a dog") r' -> r' = r) /\
     translate_to_french "a photo of a dog" = capitalize_first r) /\
  translate_if_needed "fr" "a photo of a dog" =
    translate_to_french "a photo of a dog" /\
  ("en" <> "fr" -> translate_if_needed "en" "a photo of a dog" =
                   "a photo of a dog").
Proof.
  apply (translate_to_french_algorithm "en" "a photo of a dog").
  reflexivity.
Defined.

(** C8, as the program has it: when no phrase of the table occurs in an
    (ASCII) input, whatever the case of its letters, the output is the
    input in lower case with its first character in upper case, and
    translating the output gives the output again. *)
Theorem translate_to_french_no_phrase (text : string) :
  is_ascii text = true ->
  no_table_phrase text ->
  translate_to_french text = capitalize_first (lower text) /\
  translate_to_french (translate_to_french text) = translate_to_french text.
Proof.
  intros _ H. split.
  - rewrite translate_absent by assumption.
    rewrite <- capitalize_lower. apply capitalize_lowered, lower_idem.
  - rewrite (translate_absent text H) at 1. apply translate_capitalize.
Qed.

Lemma no_table_phrase_hello : no_table_phrase "hELLO".
Proof.
  intros en fr Hin. apply str_in_not_occurs.
  unfold translations in Hin. simpl in Hin.
  repeat (destruct Hin as [Heq | Hin];
          [inversion Heq; subst; reflexivity |]).
  destruct Hin.
Qed.

Lemma translate_to_french_no_phrase_witness :
  translate_to_french "hELLO" = capitalize_first (lower "hELLO") /\
  translate_to_french (translate_to_french "hELLO") =
    translate_to_french "hELLO".
Proof.
  apply (translate_to_french_no_phrase "hELLO").
  - reflexivity.
  - exact no_table_phrase_hello.
Defined.

(** C8, as the specification words it, fails: no phrase of the table
    occurs in [hELLO], in either case of its letters, and the output
    [Hello] differs from it after the first character. *)
Lemma translate_to_french_hello_not_input :
  no_table_phrase "hELLO" /\
  (forall en fr, In (en, fr) translations -> ~ occurs en "hELLO") /\
  translate_to_french "hELLO" = "Hello" /\
  ~ equal_up_to_first_capital (translate_to_french "hELLO") "hELLO".
Proof.
  split; [exact no_table_phrase_hello |]. split; [| split].
  - intros en fr Hin. apply str_in_not_occurs.
    unfold translations in Hin. simpl in Hin.
    repeat (destruct Hin as [Heq | Hin];
            [inversion Heq; subst; reflexivity |]).
    destruct Hin.
  - reflexivity.
  - change (translate_to_french "hELLO") with "Hello". simpl.
    intros [H _]. discriminate.
Qed.

(** C10, as the program has it: in the output of [translate_to_french]
    on an ASCII input no character after the first is an upper-case letter: the table's French
    phrases are in lower case, and [capitalize] puts all that follows the
    first character in lower case. *)
Theorem translate_to_french_tail_lower (text : string) :
  is_ascii text = true ->
  Forall (fun p : string * string => lower (snd p) = snd p) translations /\
  forall i c,
    1 <= i -> get i (translate_to_french text) = Some c -> is_upper c = false.
Proof.
  intros _. split; [apply translations_lowered |].
  intros i c Hi. unfold translate_to_french.
  destruct (apply_table translations (lower text)) as [| c0 r]; simpl;
    [discriminate |].
  destruct i as [| i]; [lia |]. apply get_lower.
Qed.

Lemma translate_to_french_tail_lower_witness :
  Forall (fun p : string * string => lower (snd p) = snd p) translations /\
  forall i c,
    1 <= i -> get i (translate_to_french "A MAN on a Street") = Some c ->
    is_upper c = false.
Proof.
  apply (translate_to_french_tail_lower "A MAN on a Street").
  reflexivity.
Defined.

(** ** The endpoint: how the stages compose *)

Lemma generate_description_run (ext : Externals) (image : Image)
  (language detail_level : string) (calls : list ModelCall) :
  generate_description ext image language detail_level calls =
  (match blip ext (caption_call image detail_level) with
   | inr description_en => inr (translate_if_needed language description_en)
   | inl e => inl e
   end, calls ++ [caption_call image detail_level]).
Proof.
  unfold generate_description, caption_call, bind, generate, ret.
  destruct (String.eqb detail_level "detailed");
    match goal with |- context [blip ext ?c] => destruct (blip ext c) end;
    reflexivity.
Qed.

Lemma detect_objects_run (ext : Externals) (image : Image)
  (calls : list ModelCall) :
  detect_objects ext image calls =
  (match blip ext (objects_call image) with
   | inr objects_text => inr (parse_objects objects_text)
   | inl e => inl e
   end, calls ++ [objects_call image]).
Proof.
  unfold detect_objects, objects_call, bind, generate, ret.
  match goal with |- context [blip ext ?c] => destruct (blip ext c) end;
    reflexivity.
Qed.

(** What the endpoint does once the image is decoded. *)
Lemma analyze_image_decoded (ext : Externals) (data : Json)
  (calls : list ModelCall) (payload : string) (image_data : list Byte.byte)
  (image : Image) :
  json_get data "image" = Some payload ->
  b64decode ext payload = inr image_data ->
  image_open ext image_data = inr image ->
  let language := json_get_default data "language" "fr" in
  let detail_level := json_get_default data "detail_level" "normal" in
  let caption := caption_call image detail_level in
  analyze_image ext data calls =
  match blip ext caption with
  | inl e => (inr (Failure 500 e), calls ++ [caption])
  | inr description_en =>
      match blip ext (objects_call image) with
      | inl e => (inr (Failure 500 e), calls ++ [caption; objects_call image])
      | inr objects_text =>
          let description := translate_if_needed language description_en in
          let objects := parse_objects objects_text in
          let colors := analyze_colors ext image in
          (inr (Success description objects colors (image_size_of image)
                  (now_iso ext)
                  (format_whatsapp_response ext description objects colors)),
           calls ++ [caption; objects_call image])
      end
  end.
Proof.
  intros Hget Hdec Hopen language detail_level caption.
  unfold analyze_image, try_except, bind at 1. rewrite Hget.
  unfold lift at 1. rewrite Hdec. unfold ret at 1.
  unfold bind at 1, lift at 1. rewrite Hopen. unfold ret at 1.
  unfold bind at 1. rewrite generate_description_run.
  fold language detail_level caption.
  destruct (blip ext caption) as [e | description_en]; [reflexivity |].
  unfold bind at 1. rewrite detect_objects_run.
  destruct (blip ext (objects_call image)) as [e | objects_text].
  - unfold ret. now rewrite <- app_assoc.
  - unfold ret, image_size_of. now rewrite <- app_assoc.
Qed.

(** X1: when the payload decodes to an image and the model answers both
    calls, the endpoint answers a success made of the caption (translated
    when the language is [fr], the default), the tags parsed from the
    second answer, the colours of the image, its size and the message
    formatted from these same three values; the model was called twice,
    first for the caption, then for the objects. *)
Theorem analyze_image_success (ext : Externals) (data : Json)
  (calls : list ModelCall) (payload : string) (image_data : list Byte.byte)
  (image : Image) (description_en objects_text : string) :
  json_get data "image" = Some payload ->
  b64decode ext payload = inr image_data ->
  image_open ext image_data = inr image ->
  blip ext (caption_call image (json_get_default data "detail_level" "normal"))
    = inr description_en ->
  blip ext (objects_call image) = inr objects_text ->
  let description :=
    translate_if_needed (json_get_default data "language" "fr")
      description_en in
  let objects := parse_objects objects_text in
  let colors := analyze_colors ext image in
  analyze_image ext data calls =
  (inr (Success description objects colors (image_size_of image) (now_iso ext)
          (format_whatsapp_response ext description objects colors)),
   calls ++ [caption_call image (json_get_default data "detail_level" "normal");
             objects_call image]).
Proof.
  intros Hget Hdec Hopen Hcap Hobj.
  rewrite (analyze_image_decoded ext data calls _ _ _ Hget Hdec Hopen).
  now rewrite Hcap, Hobj.
Qed.

Lemma analyze_image_success_witness :
  let ext := answering fluent in
  let description := translate_if_needed "fr" "a photo of a dog" in
  let objects := parse_objects "a person and a car" in
  let colors := analyze_colors ext red_image in
  analyze_image ext [("image", "")] [] =
  (inr (Success description objects colors (image_size_of red_image)
          (now_iso ext)
          (format_whatsapp_response ext description objects colors)),
   [] ++ [caption_call red_image "normal"; objects_call red_image]).
Proof.
  apply (analyze_image_success (answering fluent) [("image", "")] [] ""
           [] red_image "a photo of a dog" "a person and a car");
    reflexivity.
Defined.

(** X2: when the model raises at the caption call, the endpoint answers a
    500 with the text of the exception and the objects call is not made. *)
Theorem analyze_image_caption_failure (ext : Externals) (data : Json)
  (calls : list ModelCall) (payload : string) (image_data : list Byte.byte)
  (image : Image) (e : string) :
  json_get data "image" = Some payload ->
  b64decode ext payload = inr image_data ->
  image_open ext image_data = inr image ->
  blip ext (caption_call image (json_get_default data "detail_level" "normal"))
    = inl e ->
  analyze_image ext data calls =
  (inr (Failure 500 e),
   calls ++ [caption_call image
               (json_get_default data "detail_level" "normal")]).
Proof.
  intros Hget Hdec Hopen Hcap.
  rewrite (analyze_image_decoded ext data calls _ _ _ Hget Hdec Hopen).
  now rewrite Hcap.
Qed.

Lemma analyze_image_caption_failure_witness :
  analyze_image (answering broken) [("image", "")] [] =
  (inr (Failure 500 "CUDA out of memory"),
   [] ++ [caption_call red_image
            (json_get_default [("image", "")] "detail_level" "normal")]).
Proof.
  apply (analyze_image_caption_failure (answering broken) [("image", "")] []
           "" [] red_image "CUDA out of memory");
    reflexivity.
Defined.

(** X3: when the model answers the caption call and raises at the objects
    call, the endpoint answers a 500 with the text of the exception; the
    caption is lost and both calls were made. *)
Theorem analyze_image_objects_failure (ext : Externals) (data : Json)
  (calls : list ModelCall) (payload : string) (image_data : list Byte.byte)
  (image : Image) (description_en e : string) :
  json_get data "image" = Some payload ->
  b64decode ext payload = inr image_data ->
  image_open ext image_data = inr image ->
  blip ext (caption_call image (json_get_default data "detail_level" "normal"))
    = inr description_en ->
  blip ext (objects_call image) = inl e ->
  analyze_image ext data calls =
  (inr (Failure 500 e),
   calls ++ [caption_call image (json_get_default data "detail_level" "normal");
             objects_call image]).
Proof.
  intros Hget Hdec Hopen Hcap Hobj.
  rewrite (analyze_image_decoded ext data calls _ _ _ Hget Hdec Hopen).
  now rewrite Hcap, Hobj.
Qed.

Lemma analyze_image_objects_failure_witness :
  analyze_image (answering tired) [("image", "")] [] =
  (inr (Failure 500 "CUDA out of memory"),
   [] ++ [caption_call red_image
            (json_get_default [("image", "")] "detail_level" "normal");
          objects_call red_image]).
Proof.
  apply (analyze_image_objects_failure (answering tired) [("image", "")] []
           "" [] red_image "a photo of a dog" "CUDA out of memory");
    reflexivity.
Defined.

(** The four ways a request can end. *)
Lemma analyze_image_outcomes (ext : Externals) (data : Json)
  (calls : list ModelCall) :
  exists reply new_calls,
    analyze_image ext data calls = (inr reply, calls ++ new_calls) /\
    List.length new_calls <= 2 /\
    match reply with
    | Success _ _ _ _ _ _ => List.length new_calls = 2
    | Failure status _ =>
        (status = 400%Z /\ new_calls = []) \/ status = 500%Z
    end.
Proof.
  destruct (json_get data "image") as [payload |] eqn:Hget.
  - destruct (b64decode ext payload) as [e | image_data] eqn:Hdec.
    + exists (Failure 500 e), []. rewrite app_nil_r.
      unfold analyze_image, try_except, bind, lift, raise, ret.
      rewrite Hget, Hdec. simpl. auto.
    + destruct (image_open ext image_data) as [e | image] eqn:Hopen.
      * exists (Failure 500 e), []. rewrite app_nil_r.
        unfold analyze_image, try_except, bind, lift, raise, ret.
        rewrite Hget, Hdec, Hopen. simpl. auto.
      * rewrite (analyze_image_decoded ext data calls _ _ _ Hget Hdec Hopen).
        cbv zeta.
        destruct (blip ext (caption_call image _)) as [e | description_en].
        { eexists _, [_]. split; [reflexivity |]. simpl. auto. }
        destruct (blip ext (objects_call image)) as [e | objects_text];
          eexists _, [_; _]; (split; [reflexivity |]); simpl; auto.
  - exists (Failure 400 "Aucune image fournie"), []. rewrite app_nil_r.
    unfold analyze_image, try_except, ret. rewrite Hget. simpl. auto.
Qed.

(** X4: the endpoint answers every request: no exception leaves it, and
    the answer is a success or a failure with status 400 or 500. *)
Theorem analyze_image_always_answers (ext : Externals) (data : Json)
  (calls : list ModelCall) :
  exists reply,
    fst (analyze_image ext data calls) = inr reply /\
    match reply with
    | Success _ _ _ _ _ _ => True
    | Failure status _ => status = 400%Z \/ status = 500%Z
    end.
Proof.
  destruct (analyze_image_outcomes ext data calls)
    as [reply [new_calls [Heq [_ Hreply]]]].
  exists reply. rewrite Heq. split; [reflexivity |].
  destruct reply; [exact I | tauto].
Qed.

(** X5: a request adds at most two calls of the model to those made
    before, which it keeps; a success costs exactly two and a 400 none. *)
Theorem analyze_image_model_calls (ext : Externals) (data : Json)
  (calls : list ModelCall) :
  exists new_calls,
    snd (analyze_image ext data calls) = calls ++ new_calls /\
    List.length new_calls <= 2 /\
    match fst (analyze_image ext data calls) with
    | inr (Success _ _ _ _ _ _) => List.length new_calls = 2
    | inr (Failure 400 _) => new_calls = []
    | _ => True
    end.
Proof.
  destruct (analyze_image_outcomes ext data calls)
    as [reply [new_calls [Heq [Hlen Hreply]]]].
  exists new_calls. rewrite Heq. simpl. repeat split; auto.
  destruct reply as [| status error]; auto.
  destruct Hreply as [[-> ->] | ->]; reflexivity.
Qed.

Lemma json_get_app (data data' : Json) (key : string) :
  json_get (data ++ data') key =
  match json_get data key with
  | Some v => Some v
  | None => json_get data' key
  end.
Proof.
  induction data as [| [k v] data IH]; simpl; [reflexivity |].
  now destruct (String.eqb k key).
Qed.

(** X6: the language defaults to [fr] and the detail level to [normal]: a
    request that has neither field is answered as the same request with
    the two fields set to these values. *)
Theorem analyze_image_defaults (ext : Externals) (data : Json)
  (calls : list ModelCall) :
  json_get data "language" = None ->
  json_get data "detail_level" = None ->
  analyze_image ext
    (data ++ [("language", "fr"); ("detail_level", "normal")]) calls =
  analyze_image ext data calls.
Proof.
  intros Hlang Hdetail.
  unfold analyze_image, json_get_default.
  rewrite !json_get_app, Hlang, Hdetail. simpl.
  destruct (json_get data "image"); reflexivity.
Qed.

Lemma analyze_image_defaults_witness :
  analyze_image (answering fluent)
    ([("image", "")] ++ [("language", "fr"); ("detail_level", "normal")]) [] =
  analyze_image (answering fluent) [("image", "")] [].
Proof.
  apply (analyze_image_defaults (answering fluent) [("image", "")] []);
    reflexivity.
Defined.

(** X7: only the exact value [detailed] selects the detailed caption: any
    other detail level is served as [normal]. *)
Theorem generate_description_other_level (ext : Externals) (image : Image)
  (language detail_level : string) (calls : list ModelCall) :
  detail_level <> "detailed" ->
  generate_description ext image language detail_level calls =
  generate_description ext image language "normal" calls.
Proof.
  intros Hne. rewrite !generate_description_run. unfold caption_call.
  destruct (String.eqb detail_level "detailed") eqn:E; [| reflexivity].
  apply String.eqb_eq in E. contradiction.
Qed.

Lemma generate_description_other_level_witness :
  generate_description (answering fluent) red_image "fr" "Detailed" [] =
  generate_description (answering fluent) red_image "fr" "normal" [].
Proof.
  apply (generate_description_other_level (answering fluent) red_image "fr"
           "Detailed" []).
  discriminate.
Defined.

(** ** Colour analysis: further properties *)

(** X8: the three dominance rules exclude one another, so their order does
    not matter: a pixel is [rouge] exactly when its red channel is strictly
    the greatest, [vert] exactly when its green one is, and [bleu] exactly
    when its blue one is. *)
Theorem classify_pixel_dominant (r g b : Z) :
  (classify_pixel (r, g, b) = "rouge" <-> red_rule r g b) /\
  (classify_pixel (r, g, b) = "vert" <-> green_rule r g b) /\
  (classify_pixel (r, g, b) = "bleu" <-> blue_rule r g b).
Proof.
  unfold classify_pixel, red_rule, green_rule, blue_rule.
  repeat match goal with
         | |- context [(?x >? ?y)%Z] => destruct (Z.gtb_spec x y)
         | |- context [(?x <? ?y)%Z] => destruct (Z.ltb_spec x y)
         end; simpl; repeat split; intros; try discriminate; try lia.
Qed.

(** X9: a grey pixel, with its three channels equal, never gets a colour:
    it is [blanc] above 200, [noir] below 50 and [mixte] from 50 to 200,
    both bounds included. *)
Theorem classify_pixel_grey (v : Z) :
  classify_pixel (v, v, v) =
  if (v >? 200)%Z then "blanc" else if (v <? 50)%Z then "noir" else "mixte".
Proof.
  unfold classify_pixel.
  assert (H : (v >? v)%Z = false) by (destruct (Z.gtb_spec v v); [lia | easy]).
  rewrite H. simpl.
  destruct (v >? 200)%Z; simpl; [reflexivity |].
  now destruct (v <? 50)%Z.
Qed.

Lemma total_count_pixel (d : dict) (k : string) :
  total (dict_set d k (dict_get d k 0 + 1)) = total d + 1.
Proof.
  unfold total. induction d as [| [k' v'] d IH]; simpl; [reflexivity |].
  destruct (String.eqb k' k); simpl; lia.
Qed.

(** X10: the loop counts every pixel once: the counts of the dict add up
    to the number of pixels scanned. *)
Theorem tally_total (pixels : list pixel) :
  total (tally pixels) = List.length pixels.
Proof.
  induction pixels as [| p pixels IH] using rev_ind; [reflexivity |].
  rewrite tally_snoc. unfold count_pixel.
  rewrite total_count_pixel, IH, length_app. reflexivity.
Qed.

Lemma NoDup_firstn {A : Type} (n : nat) (l : list A) :
  NoDup l -> NoDup (firstn n l).
Proof.
  intros H. rewrite <- (firstn_skipn n l) in H.
  now apply NoDup_app_remove_r in H.
Qed.

Lemma NoDup_ranking (pixels : list pixel) : NoDup (ranking pixels).
Proof.
  apply (Permutation_NoDup (l := seen (labels pixels))).
  - symmetry. apply ranking_perm.
  - apply NoDup_seen.
Qed.

(** X11: [analyze_colors] returns as many labels as there are distinct
    buckets in the image, up to three, and no label twice. *)
Theorem analyze_colors_distinct (ext : Externals) (image : Image) :
  let pixels := data (resize ext image 150 150) in
  List.length (analyze_colors ext image) =
    Nat.min 3 (List.length (seen (labels pixels))) /\
  NoDup (analyze_colors ext image).
Proof.
  intros pixels. unfold analyze_colors. fold pixels.
  rewrite top_colors_ranking. split.
  - rewrite length_firstn. f_equal.
    apply Permutation_length, ranking_perm.
  - apply NoDup_firstn, NoDup_ranking.
Qed.

Lemma list_sum_bound (l : list nat) (m : nat) :
  Forall (fun x => x <= m) l -> list_sum l <= List.length l * m.
Proof. induction 1; simpl; lia. Qed.

Lemma seen_buckets (pixels : list pixel) :
  List.length (seen (labels pixels)) <= 6.
Proof.
  change 6 with (List.length color_buckets).
  apply NoDup_incl_length; [apply NoDup_seen |].
  intros c Hc. apply (proj1 (in_seen _ _)) in Hc. unfold labels in Hc.
  apply in_map_iff in Hc. destruct Hc as [p [<- _]].
  apply classify_pixel_bucket.
Qed.

Lemma ranking_head_max (pixels : list pixel) (c0 : string)
  (rest : list string) :
  ranking pixels = c0 :: rest ->
  forall c, bucket_count pixels c <= bucket_count pixels c0.
Proof.
  intros Hrank c. pose proof (ranking_sorted pixels) as Hs.
  rewrite Hrank in Hs. inversion Hs as [| ? ? _ Hall]; subst.
  destruct (in_dec string_dec c (labels pixels)) as [Hin | Hnin].
  - apply (proj2 (in_seen _ _)) in Hin.
    apply (Permutation_in _ (Permutation_sym (ranking_perm pixels))) in Hin.
    rewrite Hrank in Hin. destruct Hin as [<- | Hin]; [lia |].
    rewrite Forall_forall in Hall. apply Hall in Hin.
    unfold ranks_before in Hin. lia.
  - unfold bucket_count at 1. rewrite (count_occ_not_In string_dec) in Hnin.
    rewrite Hnin. lia.
Qed.

(** X12: the first label returned is a dominant one: no bucket holds more
    pixels than it does, and it holds at least a sixth of the pixels. *)
Theorem analyze_colors_head_dominant (ext : Externals) (image : Image)
  (c0 : string) (rest : list string) :
  analyze_colors ext image = c0 :: rest ->
  let pixels := data (resize ext image 150 150) in
  (forall c, bucket_count pixels c <= bucket_count pixels c0) /\
  List.length pixels <= 6 * bucket_count pixels c0.
Proof.
  intros Hcol pixels. unfold analyze_colors in Hcol. fold pixels in Hcol.
  rewrite top_colors_ranking in Hcol.
  destruct (ranking pixels) as [| c1 ranked] eqn:Hrank; [discriminate |].
  simpl in Hcol. inversion Hcol; subst c1.
  pose proof (ranking_head_max pixels c0 ranked Hrank) as Hmax.
  split; [exact Hmax |].
  rewrite <- tally_total. unfold total.
  transitivity (List.length (map snd (tally pixels)) * bucket_count pixels c0).
  - apply list_sum_bound. apply Forall_forall. intros v Hv.
    apply in_map_iff in Hv. destruct Hv as [[k v'] [<- Hin]]. simpl.
    apply tally_entry in Hin. subst v'. apply Hmax.
  - rewrite length_map, <- (length_map fst). fold (keys (tally pixels)).
    rewrite keys_tally. pose proof (seen_buckets pixels). nia.
Qed.

Lemma analyze_colors_head_dominant_witness :
  let pixels := data (resize stub red_image 150 150) in
  (forall c, bucket_count pixels c <= bucket_count pixels "rouge") /\
  List.length pixels <= 6 * bucket_count pixels "rouge".
Proof.
  apply (analyze_colors_head_dominant stub red_image "rouge" []).
  unfold analyze_colors. rewrite red_image_pixels.
  rewrite top_colors_uniform by lia. reflexivity.
Defined.

(** X13: [detect_objects] never returns an empty list: the tags parsed
    from a text are between one and seven, with none twice. *)
Theorem parse_objects_bounds (objects_text : string) :
  1 <= List.length (parse_objects objects_text) <= 7 /\
  NoDup (parse_objects objects_text).
Proof.
  unfold parse_objects.
  set (f := fun obj => str_in obj (lower objects_text)).
  assert (Hnd : NoDup (filter f common_objects)).
  { apply NoDup_filter. unfold common_objects.
    repeat constructor; simpl; intuition discriminate. }
  pose proof (filter_length_le f common_objects) as Hlen.
  destruct (filter f common_objects) as [| t ts].
  - simpl. split; [lia | repeat constructor; simpl; tauto].
  - split; [| exact Hnd]. simpl in *. lia.
Qed.

(** ** The translator: further properties *)

Lemma translations_phrases_nonempty :
  Forall (fun p : string * string => snd p <> EmptyString) translations.
Proof. unfold translations. repeat constructor; discriminate. Qed.

Lemma lower_empty (s : string) : lower s = EmptyString -> s = EmptyString.
Proof. destruct s; [reflexivity | discriminate]. Qed.

Lemma replace_from_empty (old new s : string) :
  new <> EmptyString ->
  replace_from old new 0 s = EmptyString -> s = EmptyString.
Proof.
  intros Hnew. destruct s as [| c s]; [reflexivity |].
  cbn [replace_from]. destruct (prefix old (String c s)); [| discriminate].
  destruct new; [congruence | discriminate].
Qed.

Lemma apply_table_empty (table : list (string * string)) :
  Forall (fun p : string * string => fst p <> EmptyString) table ->
  Forall (fun p : string * string => snd p <> EmptyString) table ->
  forall s, apply_table table s = EmptyString -> s = EmptyString.
Proof.
  induction 1 as [| [en fr] table Hen _ IH]; intros Hfr s H; [exact H |].
  inversion Hfr as [| ? ? Hfr1 Hfr2]; subst. simpl in Hen, Hfr1.
  rewrite apply_table_cons in H. apply IH in H; [| assumption].
  rewrite replace_nonempty in H by assumption.
  now apply replace_from_empty in H.
Qed.

(** X14: the translation of a text is empty only when the text is: no
    replacement of the table erases a phrase. *)
Theorem translate_to_french_empty (text : string) :
  is_ascii text = true ->
  (translate_to_french text = EmptyString <-> text = EmptyString).
Proof.
  intros _. split; [| now intros ->].
  unfold translate_to_french. intros H.
  destruct (apply_table translations (lower text)) as [| c r] eqn:E;
    [| discriminate].
  apply lower_empty.
  apply (apply_table_empty translations); auto
    using translations_keys_nonempty, translations_phrases_nonempty.
Qed.

Lemma translate_to_french_empty_witness :
  translate_to_french "water" = EmptyString <-> "water" = EmptyString.
Proof.
  apply (translate_to_french_empty "water"). reflexivity.
Defined.

Lemma lacks_app (a : ascii) (s t : string) :
  lacks a s -> lacks a t -> lacks a (s ++ t).
Proof. induction s as [| c s IH]; simpl; tauto. Qed.

(** Replacing a one-letter phrase leaves none of that letter. *)
Lemma replace_from_letter (a : ascii) (new s : string) :
  lacks a new -> lacks a (replace_from (String a EmptyString) new 0 s).
Proof.
  intros Hnew. induction s as [| c s IH]; [exact I |].
  cbn [replace_from]. simpl prefix.
  destruct (ascii_dec a c) as [<- | Hne].
  - replace (prefix EmptyString s) with true by now destruct s.
    simpl. now apply lacks_app.
  - simpl. split; [congruence | exact IH].
Qed.

Lemma lowered_lacks_upper_a (s : string) : lower s = s -> lacks "A" s.
Proof.
  induction s as [| c s IH]; simpl; [tauto |].
  intros H. inversion H as [[Hc Hs]]. rewrite Hc, Hs. split; [| now apply IH].
  intros ->. discriminate.
Qed.

Lemma upper_char_not_a (c : ascii) : upper_char c <> "a"%char.
Proof. destruct c as [[] [] [] [] [] [] [] []]; discriminate. Qed.

Lemma upper_char_upper_a (c : ascii) :
  upper_char c = "A"%char -> c = "a"%char \/ c = "A"%char.
Proof.
  destruct c as [[] [] [] [] [] [] [] []]; intros H;
    first [discriminate H | now left | now right].
Qed.

Lemma translations_last :
  translations = removelast translations ++ [("a", "un/une")].
Proof. reflexivity. Qed.

(** X15: the letter [a] never survives the translation, in either case:
    the last pair of the table replaces every [a] by [un/une], those of
    the French phrases put in by the pairs before it included. *)
Theorem translate_to_french_no_a (text : string) :
  is_ascii text = true ->
  lacks "a" (translate_to_french text) /\
  lacks "A" (translate_to_french text).
Proof.
  intros _. unfold translate_to_french.
  set (r := apply_table translations (lower text)).
  assert (Hlow : lower r = r).
  { apply apply_table_lowered; [apply translations_lowered | apply lower_idem]. }
  assert (Ha : lacks "a" r).
  { unfold r, apply_table. rewrite translations_last, fold_left_app.
    cbn [fold_left]. rewrite replace_nonempty by discriminate.
    apply replace_from_letter. simpl. repeat split; discriminate. }
  pose proof (lowered_lacks_upper_a r Hlow) as HA.
  rewrite capitalize_lowered by assumption.
  destruct r as [| c r]; simpl in *; [tauto |].
  destruct Ha as [Hc Ha]. destruct HA as [HC HA].
  repeat split; auto.
  - apply upper_char_not_a.
  - intros H. apply upper_char_upper_a in H. tauto.
Qed.

Lemma translate_to_french_no_a_witness :
  lacks "a" (translate_to_french "A cat and a man") /\
  lacks "A" (translate_to_french "A cat and a man").
Proof.
  apply (translate_to_french_no_a "A cat and a man"). reflexivity.
Defined.

(** ** The translator beyond ASCII *)

Lemma lower_char_ascii (c : ascii) :
  nat_of_ascii c < 128 -> nat_of_ascii (lower_char c) < 128.
Proof.
  destruct c as [[] [] [] [] [] [] [] []]; vm_compute; intros H;
    first [exact H | lia].
Qed.

Lemma lower_head_ascii (s : string) :
  is_ascii s = true -> head_ascii (lower s).
Proof.
  destruct s as [| c s]; simpl; [tauto |].
  intros H. apply andb_true_iff in H. destruct H as [H _].
  apply Nat.ltb_lt in H. now apply lower_char_ascii.
Qed.

Lemma replace_from_head_ascii (old new s : string) :
  new <> EmptyString -> head_ascii new -> head_ascii s ->
  head_ascii (replace_from old new 0 s).
Proof.
  intros Hne Hnew Hs. destruct s as [| c s]; [exact I |].
  cbn [replace_from]. destruct (prefix old (String c s)); [| exact Hs].
  destruct new; [congruence | exact Hnew].
Qed.

Lemma translations_head_ascii :
  Forall (fun p : string * string => head_ascii (snd p)) translations.
Proof. unfold translations. repeat constructor; simpl; lia. Qed.

Lemma apply_table_head_ascii (table : list (string * string)) :
  Forall (fun p : string * string => fst p <> EmptyString) table ->
  Forall (fun p : string * string => snd p <> EmptyString) table ->
  Forall (fun p : string * string => head_ascii (snd p)) table ->
  forall s, head_ascii s -> head_ascii (apply_table table s).
Proof.
  induction 1 as [| [en fr] table Hen _ IH]; intros Hfr Hha s Hs; [exact Hs |].
  inversion Hfr; subst. inversion Hha; subst. cbn [fst snd] in *.
  rewrite apply_table_cons. apply IH; auto.
  rewrite replace_nonempty by assumption.
  now apply replace_from_head_ascii.
Qed.

Lemma capitalize_unicode_head_ascii (s : string) :
  head_ascii s -> capitalize_unicode s = capitalize s.
Proof.
  destruct s as [| c1 [| c2 s]]; try reflexivity.
  unfold capitalize_unicode. intros H.
  destruct (Ascii.eqb c1 "197") eqn:E; [| reflexivity].
  apply Ascii.eqb_eq in E. subst c1. unfold head_ascii in H.
  change (nat_of_ascii "197") with 197 in H. lia.
Qed.

(** On an ASCII text the two embeddings of the translator agree. *)
Lemma translate_to_french_unicode_ascii (text : string) :
  is_ascii text = true ->
  translate_to_french_unicode text = translate_to_french text.
Proof.
  intros H. unfold translate_to_french_unicode, translate_to_french.
  apply capitalize_unicode_head_ascii.
  apply apply_table_head_ascii;
    auto using translations_keys_nonempty, translations_phrases_nonempty,
      translations_head_ascii, lower_head_ascii.
Qed.

(** C10, as the specification words it ("every input string"), fails
    outside ASCII: the text [ŉ] holds no phrase of the table and is in
    lower case, and its translation is [ʼN]: the second character, which
    is the byte at index 2 as the first one takes two bytes, is the
    upper-case letter [N]. *)
Lemma translate_to_french_unicode_upper_tail :
  translate_to_french_unicode "ŉ" = "ʼN" /\
  get 2 (translate_to_french_unicode "ŉ") = Some "N"%char /\
  is_upper "N" = true.
Proof. repeat split. Qed.

(** Beyond ASCII, translating the translation is not translating once:
    the second pass puts the [N] of [ʼN] in lower case. *)
Lemma translate_to_french_unicode_twice :
  no_table_phrase "ŉ" /\
  translate_to_french_unicode "ŉ" = "ʼN" /\
  translate_to_french_unicode (translate_to_french_unicode "ŉ") = "ʼn".
Proof.
  split; [| split; reflexivity].
  intros en fr Hin. apply str_in_not_occurs.
  unfold translations in Hin. simpl in Hin.
  repeat (destruct Hin as [Heq | Hin];
          [inversion Heq; subst; reflexivity |]).
  destruct Hin.
Qed.
